(** * phosphor-led-sysfs: the internal AddLED / RemoveLED interface

    A shallow embedding of [interfaces/internal_interface.cpp] and
    [interfaces/internal_interface.hpp]:

    - the name parser [getLedDescr] and the bus-name formatter [getDbusName]
      are pure functions on strings;
    - [createLEDPath], [addLED] and [removeLED] run in a small state and
      exception monad over a [Machine] that holds the [leds] map of the
      interface object, the journal and the objects created and destroyed;
    - the two sd-bus callbacks [addLedConfigure] and [removeLedConfigure]
      take nullable pointers and end in an [Outcome]: a value returned, an
      exception their [catch] does not take, or undefined behaviour. *)

From Stdlib Require Import ZArith Ascii String.
From stdpp Require Import base option list strings gmap fin_maps.

(** ** Constants of [internal_interface.hpp] *)

Definition BUSNAME : string := "xyz.openbmc_project.LED.Controller".
Definition OBJPATH : string := "/xyz/openbmc_project/led/physical".
Definition ROOTPATH : string := "/xyz/openbmc_project/led".
Definition DEVPATH : string := "/sys/class/leds/".
Definition INTERFACE : string := "xyz.openbmc_project.Led.Sysfs.Internal".
Definition LEDADDMETHOD : string := "AddLED".

(** [EINVAL] of [<errno.h>]. *)
Definition EINVAL : Z := 22.

(** ** The string algorithms of Boost used by the parser and the formatter *)

Module boost.

(** [boost::is_any_of(set)]: the predicate "the character occurs in [set]". *)
Fixpoint is_any_of (set : string) (c : ascii) : bool :=
  match set with
  | EmptyString => false
  | String d rest => if Ascii.eqb c d then true else is_any_of rest c
  end.

(** [boost::split(words, input, pred)] with the default
    [token_compress_off]: every character satisfying [pred] ends a token,
    adjacent separators give empty tokens, and an input with [n]
    separators gives [n + 1] tokens (one empty token for the empty
    input). *)
Fixpoint split (pred : ascii -> bool) (input : string) : list string :=
  match input with
  | EmptyString => [EmptyString]
  | String c rest =>
      if pred c then EmptyString :: split pred rest
      else match split pred rest with
           | w :: ws => String c w :: ws
           | [] => [String c EmptyString]
           end
  end.

(** [boost::join(words, sep)]. *)
Fixpoint join (words : list string) (sep : string) : string :=
  match words with
  | [] => EmptyString
  | [w] => w
  | w :: ws => w +:+ sep +:+ join ws sep
  end.

End boost.

(** [std::vector::at]: the element, or [None] where the source throws
    [std::out_of_range]. *)
Definition at_ {A : Type} (v : list A) (i : nat) : option A := v !! i.

(** [std::string::empty]. *)
Definition empty (s : string) : bool :=
  match s with
  | EmptyString => true
  | String _ _ => false
  end.

(** ** [struct LedDescr] *)

Record LedDescr : Type := mkLedDescr {
  devicename : string;
  color : string;
  function : string
}.

(** A default-constructed [LedDescr]: three empty strings. *)
Definition LedDescr_default : LedDescr := mkLedDescr "" "" "".

Definition set_devicename (w : string) (d : LedDescr) : LedDescr :=
  mkLedDescr w (color d) (function d).
Definition set_color (w : string) (d : LedDescr) : LedDescr :=
  mkLedDescr (devicename d) w (function d).
Definition set_function (w : string) (d : LedDescr) : LedDescr :=
  mkLedDescr (devicename d) (color d) w.

(** [InternalInterface::getLedDescr]: the three assignments run in order
    inside one [try]; the first [words.at(i)] out of range leaves the
    remaining fields of the out-parameter as they were. *)
Definition getLedDescr (name : string) (ledDescr : LedDescr) : LedDescr :=
  let words := boost.split (boost.is_any_of ":") name in
  match at_ words 0 with
  | None => ledDescr
  | Some w0 =>
      let ledDescr := set_devicename w0 ledDescr in
      match at_ words 1 with
      | None => ledDescr
      | Some w1 =>
          let ledDescr := set_color w1 ledDescr in
          match at_ words 2 with
          | None => ledDescr
          | Some w2 => set_function w2 ledDescr
          end
      end
  end.

(** [InternalInterface::getDbusName]. *)
Definition getDbusName (ledDescr : LedDescr) : string :=
  let words := [devicename ledDescr] in
  let words := if negb (empty (function ledDescr))
               then words ++ [function ledDescr] else words in
  let words := if negb (empty (color ledDescr))
               then words ++ [color ledDescr] else words in
  boost.join words "_".

(** ** Objects owned by the registry *)

(** Modelled from the spec: [phosphor::led::SysfsLed] of [sysfs.hpp], a class
    outside the interface files, is the opaque device handle over the
    validated sysfs directory of one LED. [sled_id] is the identity of the object: two
    handles made by two calls are two objects even over the same directory. *)
Record SysfsLed : Type := mkSysfsLed {
  sled_id : nat;
  sled_root : string
}.

(** Modelled from the spec: [phosphor::led::Physical] of [physical.hpp], a
    class outside the interface files, is the control object published at an
    object path; it owns the device handle and carries the resolved colour. *)
Record Physical : Type := mkPhysical {
  phys_id : nat;
  phys_objPath : string;
  phys_led : SysfsLed;
  phys_color : string
}.

(** [sdbusplus::exception_t], seen through [name()] and [description()]. *)
Record exception_t : Type := mkException {
  e_name : string;
  e_description : string
}.

(** [std::filesystem::filesystem_error], seen through [what()] and the value
    of [code()]. It is a [std::exception], not an [sdbusplus::exception_t]. *)
Record filesystem_error : Type := mkFilesystemError {
  fe_what : string;
  fe_code : Z
}.

(** What a call does besides changing [leds]. *)
Inductive Event : Type :=
| LogError (msg : string) (fields : list (string * string))
| NewSysfsLed (led : SysfsLed)
| DeleteSysfsLed (led : SysfsLed)
| NewPhysical (p : Physical)
| DeletePhysical (p : Physical)
| MethodReturn
| BusErrorSet (name description : string).

(** The process: the [leds] member of the one [InternalInterface] object
    ([std::unordered_map<std::string, std::unique_ptr<Physical>>]), the
    counter that names freshly allocated objects, and the events so far. *)
Record Machine : Type := mkMachine {
  leds : gmap string Physical;
  next_id : nat;
  trace : list Event
}.

Definition Machine_init : Machine := mkMachine ∅ 0 [].

(** What surrounds one call and is decided outside the interface files: the
    file system, the bus and the sd-bus library. *)
Record Env : Type := mkEnv {
  (** [std::filesystem::exists(path)], the overload that throws: [inr b]
      when it returns [b]; [inl e] when the status of the path cannot be read
      for a reason other than the path not being there, and it throws [e]. *)
  fs_exists : string -> filesystem_error + bool;
  (** the constructor of [Physical] at an object path: [None] when the object
      is built, [Some e] when the bus layer throws [e] instead. *)
  physical_ctor : string -> option exception_t;
  (** what reading from a null [sd_bus_message] throws. *)
  null_message_error : exception_t;
  (** the value [sd_bus_error_set] returns for a name and a description. *)
  sd_bus_error_set_rc : string -> string -> Z
}.

(** ** The state and exception monad of the member functions *)

(** How a computation stops early: an [sdbusplus::exception_t] in flight, a
    [std::filesystem::filesystem_error] in flight, or a member access through
    a null [this], which has no defined behaviour. *)
Inductive Abort : Type :=
| Thrown (e : exception_t)
| ThrownFs (e : filesystem_error)
| NullDereference.

Definition M (A : Type) : Type := Machine -> (Abort + A) * Machine.

Definition ret {A : Type} (a : A) : M A := fun m => (inr a, m).

Definition bind {A B : Type} (c : M A) (k : A -> M B) : M B :=
  fun m =>
    match c m with
    | (inl stop, m') => (inl stop, m')
    | (inr a, m') => k a m'
    end.

Definition throw {A : Type} (e : exception_t) : M A := fun m => (inl (Thrown e), m).

Definition undefined {A : Type} : M A := fun m => (inl NullDereference, m).

Definition emit (evs : list Event) : M unit :=
  fun m => (inr tt, mkMachine (leds m) (next_id m) (trace m ++ evs)).

Notation "x <~ c ;; k" := (bind c (fun x => k))
  (at level 20, c at level 99, k at level 200, only parsing).
Notation "c ;;; k" := (bind c (fun _ => k))
  (at level 20, k at level 200, only parsing).

(** [std::filesystem::exists(fs::path(path))]. *)
Definition filesystem_exists (env : Env) (path : string) : M bool :=
  fun m =>
    match fs_exists env path with
    | inl e => (inl (ThrownFs e), m)
    | inr found => (inr found, m)
    end.

(** [lg2::error(msg, key, value, ...)]. *)
Definition lg2_error (msg : string) (fields : list (string * string)) : M unit :=
  emit [LogError msg fields].

(** [std::make_unique<phosphor::led::SysfsLed>(fs::path(path))]. *)
Definition make_unique_SysfsLed (root : string) : M SysfsLed :=
  fun m =>
    let led := mkSysfsLed (next_id m) root in
    (inr led, mkMachine (leds m) (S (next_id m)) (trace m ++ [NewSysfsLed led])).

(** [std::make_unique<phosphor::led::Physical>(bus, objPath, std::move(sled),
    color)]: the handle is moved into the new object; when the constructor
    throws, the handle goes with the unwinding. *)
Definition make_unique_Physical (env : Env) (objPath : string) (sled : SysfsLed)
    (ledColor : string) : M Physical :=
  fun m =>
    match physical_ctor env objPath with
    | Some e =>
        (inl (Thrown e),
         mkMachine (leds m) (next_id m) (trace m ++ [DeleteSysfsLed sled]))
    | None =>
        let p := mkPhysical (next_id m) objPath sled ledColor in
        (inr p, mkMachine (leds m) (S (next_id m)) (trace m ++ [NewPhysical p]))
    end.

(** [leds.emplace(key, std::move(value))] of [std::unordered_map]: inserts
    only if no element has the key; otherwise the map is left as it is and
    the element just built is destroyed, and with it the handle it owns.
    Returns whether the insertion took place. *)
Definition leds_emplace (key : string) (value : Physical) : M bool :=
  fun m =>
    match leds m !! key with
    | Some _ =>
        (inr false,
         mkMachine (leds m) (next_id m)
           (trace m ++ [DeletePhysical value; DeleteSysfsLed (phys_led value)]))
    | None =>
        (inr true, mkMachine (<[key := value]> (leds m)) (next_id m) (trace m))
    end.

(** Modelled from the spec: [objPath /= name] of the library type
    [sdbusplus::message::object_path] gives the fixed root, then [/], then
    the canonical id. *)
Definition object_path_append (objPath name : string) : string :=
  objPath +:+ "/" +:+ name.

(** ** [InternalInterface::createLEDPath], [addLED], [removeLED] *)

Definition createLEDPath (env : Env) (ledName : string) : M unit :=
  let name := ledName in
  let path := DEVPATH +:+ name in
  found <~ filesystem_exists env path ;;
  if negb found then
    lg2_error "No such directory {PATH}" [("PATH", path)]
  else
    (* Convert LED name in sysfs into DBus name *)
    let ledDescr := getLedDescr name LedDescr_default in
    let name := getDbusName ledDescr in
    (* Unique path name representing a single LED. *)
    let objPath := object_path_append OBJPATH name in
    sled <~ make_unique_SysfsLed path ;;
    phys <~ make_unique_Physical env objPath sled (color ledDescr) ;;
    leds_emplace objPath phys ;;;
    ret tt.

Definition addLED (env : Env) (name : string) : M unit :=
  createLEDPath env name.

Definition removeLED (env : Env) (name : string) : M unit :=
  createLEDPath env name.

(** ** The sd-bus callbacks *)

(** An [sd_bus_message] as the callbacks use it: what
    [unpack<std::string>()] gives, and whether building and sending the method
    return throws. *)
Record sd_bus_message : Type := mkMessage {
  msg_payload : exception_t + string;
  msg_reply : option exception_t
}.

(** The [void* context] of a callback: null, or the interface object. *)
Inductive context_ptr : Type :=
| context_null
| context_self.

(** [sdbusplus::message_t(msg).unpack<std::string>()]. *)
Definition message_unpack (env : Env) (msg : option sd_bus_message) : M string :=
  match msg with
  | None => throw (null_message_error env)
  | Some message =>
      match msg_payload message with
      | inl e => throw e
      | inr ledName => ret ledName
      end
  end.

(** [message.new_method_return()] followed by [reply.method_return()]. *)
Definition message_method_return (env : Env) (msg : option sd_bus_message) : M unit :=
  match msg with
  | None => throw (null_message_error env)
  | Some message =>
      match msg_reply message with
      | Some e => throw e
      | None => emit [MethodReturn]
      end
  end.

(** A member call [self->f(...)] after [static_cast<InternalInterface*>(context)]. *)
Definition through (context : context_ptr) (call : M unit) : M unit :=
  match context with
  | context_null => undefined
  | context_self => call
  end.

(** How a callback ends: it hands a value back to sd-bus, an exception its
    [catch] does not take leaves it, or its behaviour is undefined. *)
Inductive Outcome : Type :=
| Returned (rc : Z) (m : Machine)
| Escaped (e : filesystem_error) (m : Machine)
| Undefined.

Definition is_nullptr {A : Type} (p : option A) : bool :=
  match p with
  | None => true
  | Some _ => false
  end.

Definition context_is_nullptr (context : context_ptr) : bool :=
  match context with
  | context_null => true
  | context_self => false
  end.

(** The [try] block with its [catch (const sdbusplus::exception_t& e)] and
    the [return 1] after it. *)
Definition try_catch (env : Env) (body : M unit) (m : Machine) : Outcome :=
  match body m with
  | (inr _, m') => Returned 1 m'
  | (inl (Thrown e), m') =>
      Returned (sd_bus_error_set_rc env (e_name e) (e_description e))
        (snd (emit [BusErrorSet (e_name e) (e_description e)] m'))
  | (inl (ThrownFs e), m') => Escaped e m'
  | (inl NullDereference, _) => Undefined
  end.

Definition addLedConfigure (env : Env) (msg : option sd_bus_message)
    (context : context_ptr) (m : Machine) : Outcome :=
  if is_nullptr msg && context_is_nullptr context then
    Returned (- EINVAL) (snd (lg2_error "Unable to configure addLed" [] m))
  else
    try_catch env
      (ledName <~ message_unpack env msg ;;
       through context (addLED env ledName) ;;;
       message_method_return env msg) m.

Definition removeLedConfigure (env : Env) (msg : option sd_bus_message)
    (context : context_ptr) (m : Machine) : Outcome :=
  if is_nullptr msg && context_is_nullptr context then
    Returned (- EINVAL) (snd (lg2_error "Unable to configure removeLed" [] m))
  else
    try_catch env
      (ledName <~ message_unpack env msg ;;
       through context (removeLED env ledName) ;;;
       message_method_return env msg) m.

(** ** Sequences of calls *)

Inductive Call : Type :=
| AddLED (name : string)
| RemoveLED (name : string).

Definition perform (env : Env) (c : Call) : M unit :=
  match c with
  | AddLED name => addLED env name
  | RemoveLED name => removeLED env name
  end.

(** Each call runs in the environment it meets; an exception it raises ends
    that call only. *)
Fixpoint run (calls : list (Env * Call)) (m : Machine) : Machine :=
  match calls with
  | [] => m
  | (env, c) :: rest => run rest (snd (perform env c m))
  end.

(** ** Derived notions used by the statements *)

(** The [:]-delimited segments of a raw name, as [getLedDescr] splits it. *)
Definition segments (name : string) : list string :=
  boost.split (boost.is_any_of ":") name.

(** How many characters of a string satisfy a predicate. *)
Fixpoint count_sep (pred : ascii -> bool) (s : string) : nat :=
  match s with
  | EmptyString => 0
  | String c rest => (if pred c then 1 else 0) + count_sep pred rest
  end.

(** The sysfs directory [createLEDPath] tests for a raw name. *)
Definition ledDevPath (name : string) : string := DEVPATH +:+ name.

(** The canonical id of a raw name: the formatter after the parser, the
    descriptor starting default-constructed as in [createLEDPath]. *)
Definition canonicalId (name : string) : string :=
  getDbusName (getLedDescr name LedDescr_default).

(** The key [createLEDPath] uses in [leds] for a raw name. *)
Definition ledObjPath (name : string) : string :=
  object_path_append OBJPATH (canonicalId name).

(** The events a computation added, from the machine before and after it. *)
Definition events_since (before after : Machine) : list Event :=
  drop (length (trace before)) (trace after).

(** An environment in which exactly the listed paths exist, the existence
    check never throws and every [Physical] is constructed. *)
Definition env_with (paths : list string) : Env :=
  mkEnv (fun p => inr (bool_decide (p ∈ paths))) (fun _ => None)
    (mkException "org.freedesktop.DBus.Error.InvalidArgs" "Invalid argument")
    (fun _ _ => (- EINVAL)%Z).

(** The same, except that every construction of a [Physical] throws [e]. *)
Definition env_refusing (paths : list string) (e : exception_t) : Env :=
  mkEnv (fun p => inr (bool_decide (p ∈ paths))) (fun _ => Some e)
    (mkException "org.freedesktop.DBus.Error.InvalidArgs" "Invalid argument")
    (fun _ _ => (- EINVAL)%Z).







Definition file_exists : exception_t :=
  mkException "org.freedesktop.DBus.Error.FileExists" "sd_bus_add_object_vtable".

(** The reading of the name under which the second segment is the function
    and the third the colour, the id joining the three in segment order. *)
Definition second_is_function (name : string) : Prop :=
  forall s0 s1 s2 rest,
    segments name = s0 :: s1 :: s2 :: rest ->
    let d := getLedDescr name LedDescr_default in
    function d = s1 /\ color d = s2 /\ getDbusName d = boost.join [s0; s1; s2] "_".

(** "Last writer wins" between the machine before and after a call: the
    object now live under [key] was built by this call, and the object that
    was live there before has been destroyed by it. *)
Definition replaced_by_call (key : string) (before after : Machine) : Prop :=
  exists old new,
    leds before !! key = Some old /\
    leds after !! key = Some new /\
    In (NewPhysical new) (events_since before after) /\
    In (DeletePhysical old) (events_since before after).


(** The raw name a call carries. *)
Definition call_name (c : Call) : string :=
  match c with
  | AddLED name => name
  | RemoveLED name => name
  end.

(** Whether [createLEDPath] gets as far as [leds.emplace] for a raw name: the
    directory exists and the control object is built. *)
Definition reaches_emplace (env : Env) (name : string) : bool :=
  match fs_exists env (ledDevPath name) with
  | inr true =>
      match physical_ctor env (ledObjPath name) with
      | None => true
      | Some _ => false
      end
  | _ => false
  end.

(** The keys a sequence of calls brings to [leds.emplace]. *)
Fixpoint emplaced_keys (calls : list (Env * Call)) : gset string :=
  match calls with
  | [] => ∅
  | (env, c) :: rest =>
      (if reaches_emplace env (call_name c)
       then {[ledObjPath (call_name c)]} else ∅) ∪ emplaced_keys rest
  end.

(** The handle and the control object [createLEDPath] builds for a raw name
    on a machine. *)
Definition new_sled (name : string) (m : Machine) : SysfsLed :=
  mkSysfsLed (next_id m) (ledDevPath name).

Definition new_phys (name : string) (m : Machine) : Physical :=
  mkPhysical (S (next_id m)) (ledObjPath name) (new_sled name m)
    (color (getLedDescr name LedDescr_default)).

(** An entry of [leds] as [createLEDPath] makes them: stored under the
    object path it was built with, which is the key of some raw name, its
    handle over the directory of that name and its colour the one parsed
    from that name. *)
Definition entry_ok (key : string) (p : Physical) : Prop :=
  phys_objPath p = key /\
  exists name,
    key = ledObjPath name /\
    sled_root (phys_led p) = ledDevPath name /\
    phys_color p = color (getLedDescr name LedDescr_default).

(** A control object built during a call is accounted for: it is the live
    entry under its object path, or the call destroyed it. *)
Definition physical_accounted (before after : Machine) (p : Physical) : Prop :=
  leds after !! phys_objPath p = Some p \/
  In (DeletePhysical p) (events_since before after).

(** A handle built during a call is accounted for: a live entry owns it, or
    the call destroyed it. *)
Definition handle_accounted (before after : Machine) (led : SysfsLed) : Prop :=
  (exists key p, leds after !! key = Some p /\ phys_led p = led) \/
  In (DeleteSysfsLed led) (events_since before after).

(** What the [catch] of a callback returns for an exception, and the machine
    it leaves. *)
Definition error_rc (env : Env) (e : exception_t) : Z :=
  sd_bus_error_set_rc env (e_name e) (e_description e).

Definition error_set (e : exception_t) : Event :=
  BusErrorSet (e_name e) (e_description e).

(** The body both callbacks run after the guard, for the member function
    [op] they call. *)
Definition guarded_body (env : Env) (msg : option sd_bus_message)
    (context : context_ptr) (op : string -> M unit) : M unit :=
  ledName <~ message_unpack env msg ;;
  through context (op ledName) ;;;
  message_method_return env msg.

(** How a callback called with the interface object as context ends. Either
    it returns, [leds] having only grown, with 1 or with the error value of a
    caught exception, recorded last; or the message carries a name for whose
    directory the existence check throws, and that filesystem error leaves
    the callback with the machine as it was. *)
Definition callback_ends (env : Env) (msg : option sd_bus_message) (m : Machine)
    (o : Outcome) : Prop :=
  (exists rc m',
      o = Returned rc m' /\
      leds m ⊆ leds m' /\
      (rc = 1%Z \/
       exists e, rc = error_rc env e /\ last (trace m') = Some (error_set e))) \/
  (exists fe message name,
      o = Escaped fe m /\
      msg = Some message /\
      msg_payload message = inr name /\
      fs_exists env (ledDevPath name) = inl fe).

(** ** Parsing and formatting *)

Example getLedDescr_two :
  getLedDescr "fan1:green" LedDescr_default = mkLedDescr "fan1" "green" "".
Proof. reflexivity. Qed.

Example getLedDescr_keeps_fields :
  getLedDescr "a" (mkLedDescr "x" "y" "z") = mkLedDescr "a" "y" "z".
Proof. reflexivity. Qed.

Example split_adjacent : segments "a::b" = ["a"; ""; "b"].
Proof. reflexivity. Qed.

Example split_empty : segments "" = [""].
Proof. reflexivity. Qed.

Lemma split_length (pred : ascii -> bool) (s : string) :
  length (boost.split pred s) = S (count_sep pred s).
Proof.
  induction s as [|c rest IH]; simpl; [done|].
  destruct (pred c); simpl; [by rewrite IH|].
  destruct (boost.split pred rest) as [|w ws]; simpl in *; lia.
Qed.

Lemma split_no_separator (pred : ascii -> bool) (s : string) :
  count_sep pred s = 0 -> boost.split pred s = [s].
Proof.
  induction s as [|c rest IH]; simpl; [done|].
  destruct (pred c); simpl; [done|].
  intros H. by rewrite (IH H).
Qed.

Lemma one_segment_no_colon (name : string) :
  length (segments name) = 1 <-> count_sep (boost.is_any_of ":") name = 0.
Proof. unfold segments. rewrite split_length. lia. Qed.

Lemma getLedDescr_one (name : string) (d : LedDescr) :
  segments name = [name] -> getLedDescr name d = set_devicename name d.
Proof. unfold getLedDescr, segments. by intros ->. Qed.

Lemma getLedDescr_three (name s0 s1 s2 : string) (rest : list string) (d : LedDescr) :
  segments name = s0 :: s1 :: s2 :: rest ->
  getLedDescr name d = mkLedDescr s0 s1 s2.
Proof. unfold getLedDescr, segments. by intros ->. Qed.

Lemma empty_true (s : string) : empty s = true <-> s = "".
Proof. by destruct s. Qed.

Lemma getDbusName_fields (s0 s1 s2 : string) :
  getDbusName (mkLedDescr s0 s1 s2) =
  boost.join (s0 :: (if empty s2 then [] else [s2]) ++ (if empty s1 then [] else [s1])) "_".
Proof. unfold getDbusName. simpl. by destruct (empty s2), (empty s1). Qed.

(** C3. Parsing "front:blue:fault" gives device name "front", colour "blue"
    and function "fault"; formatting that descriptor gives
    "front_fault_blue"; the key under which [createLEDPath] registers the LED
    is the fixed root, a slash and that id. *)
Theorem scenario_front_blue_fault :
  getLedDescr "front:blue:fault" LedDescr_default = mkLedDescr "front" "blue" "fault" /\
  getDbusName (mkLedDescr "front" "blue" "fault") = "front_fault_blue" /\
  ledObjPath "front:blue:fault" = "/xyz/openbmc_project/led/physical/front_fault_blue" /\
  ledObjPath "front:blue:fault" = OBJPATH +:+ "/" +:+ canonicalId "front:blue:fault" /\
  map_to_list
    (leds (snd (createLEDPath (env_with ["/sys/class/leds/front:blue:fault"])
                  "front:blue:fault" Machine_init))) =
  [("/xyz/openbmc_project/led/physical/front_fault_blue",
    mkPhysical 1 "/xyz/openbmc_project/led/physical/front_fault_blue"
      (mkSysfsLed 0 "/sys/class/leds/front:blue:fault") "blue")].
Proof. repeat split; vm_compute; reflexivity. Qed.

(** C4, as stated, does not hold: in "front:blue:fault" the second segment
    "blue" becomes the colour and the third segment "fault" the function, and
    the id is "front_fault_blue", not "front_blue_fault". *)
Lemma second_segment_is_the_colour :
  segments "front:blue:fault" = ["front"; "blue"; "fault"] /\
  function (getLedDescr "front:blue:fault" LedDescr_default) = "fault" /\
  color (getLedDescr "front:blue:fault" LedDescr_default) = "blue" /\
  canonicalId "front:blue:fault" = "front_fault_blue" /\
  canonicalId "front:blue:fault" <> boost.join ["front"; "blue"; "fault"] "_" /\
  ~ second_is_function "front:blue:fault".
Proof.
  repeat split; try reflexivity; try discriminate.
  intros H.
  destruct (H "front" "blue" "fault" [] eq_refl) as (Hf & _ & _).
  discriminate Hf.
Qed.

(** C4, amended. For a raw name with at least three segments the parser
    takes the first as the device name, the second as the colour and the
    third as the function, and ignores the rest; the id is the device name,
    then the function if it is not empty, then the colour if it is not empty,
    joined by underscores: first_third_second when both are present. *)
Theorem three_segments_canonical_id (name s0 s1 s2 : string) (rest : list string) :
  segments name = s0 :: s1 :: s2 :: rest ->
  let d := getLedDescr name LedDescr_default in
  devicename d = s0 /\ color d = s1 /\ function d = s2 /\
  getDbusName d =
    boost.join (s0 :: (if empty s2 then [] else [s2]) ++ (if empty s1 then [] else [s1])) "_" /\
  (s1 <> "" -> s2 <> "" -> getDbusName d = s0 +:+ "_" +:+ s2 +:+ "_" +:+ s1).
Proof.
  intros Hseg d. subst d. rewrite (getLedDescr_three _ _ _ _ _ _ Hseg). simpl.
  repeat split; [apply getDbusName_fields|].
  intros H1 H2. rewrite getDbusName_fields.
  destruct s1; [done|]. destruct s2; [done|]. reflexivity.
Qed.

Lemma three_segments_canonical_id_witness :
  segments "x:red:status" = ["x"; "red"; "status"] /\
  getDbusName (getLedDescr "x:red:status" LedDescr_default) = "x_status_red".
Proof.
  split; [reflexivity|].
  refine (_ (three_segments_canonical_id "x:red:status" "x" "red" "status" [] eq_refl)).
  intros (_ & _ & _ & _ & H). apply H; discriminate.
Defined.

(** C6. A raw name with exactly one segment (no colon in it) parses to a
    descriptor whose device name is the whole name and whose colour and
    function are empty, and formats to exactly that device name. *)
Theorem one_segment_canonical_id (name : string) :
  length (segments name) = 1 ->
  let d := getLedDescr name LedDescr_default in
  devicename d = name /\ color d = "" /\ function d = "" /\
  getDbusName d = devicename d /\ canonicalId name = name.
Proof.
  intros Hlen d. subst d. unfold canonicalId.
  apply one_segment_no_colon in Hlen.
  rewrite (getLedDescr_one name _ (split_no_separator _ _ Hlen)).
  by repeat split.
Qed.

Lemma one_segment_canonical_id_witness :
  getLedDescr "power" LedDescr_default = mkLedDescr "power" "" "" /\
  canonicalId "power" = "power".
Proof.
  refine (_ (one_segment_canonical_id "power" eq_refl)).
  intros (_ & _ & _ & _ & H). split; [reflexivity|exact H].
Defined.

(** C10. The derivation of the canonical id from the raw name is not
    injective: "a:b" and "a::b" both give "a_b", "a" and "a:" both give "a",
    and so each pair shares one registry key. *)
Theorem canonicalId_not_injective :
  canonicalId "a:b" = "a_b" /\ canonicalId "a::b" = "a_b" /\ "a:b" <> "a::b" /\
  canonicalId "a" = "a" /\ canonicalId "a:" = "a" /\ "a" <> "a:" /\
  ledObjPath "a:b" = ledObjPath "a::b" /\ ledObjPath "a" = ledObjPath "a:" /\
  ~ Inj (=) (=) canonicalId.
Proof.
  repeat split; try reflexivity; try discriminate.
  intros Hinj. specialize (Hinj "a" "a:" eq_refl). discriminate Hinj.
Qed.

(** ** What one call of [createLEDPath] does *)

Section CreateLEDPath.

Variable env : Env.
Variable name : string.
Variable m : Machine.

(** The handle and the control object a call on [m] builds for [name]. *)
Let sled : SysfsLed := mkSysfsLed (next_id m) (ledDevPath name).
Let phys : Physical :=
  mkPhysical (S (next_id m)) (ledObjPath name) sled
    (color (getLedDescr name LedDescr_default)).

Lemma createLEDPath_stat_fails (fe : filesystem_error) :
  fs_exists env (ledDevPath name) = inl fe ->
  createLEDPath env name m = (inl (ThrownFs fe), m).
Proof.
  unfold createLEDPath, ledDevPath, bind, filesystem_exists. by intros ->.
Qed.

Lemma createLEDPath_absent :
  fs_exists env (ledDevPath name) = inr false ->
  createLEDPath env name m =
  (inr tt,
   mkMachine (leds m) (next_id m)
     (trace m ++ [LogError "No such directory {PATH}" [("PATH", ledDevPath name)]])).
Proof.
  unfold createLEDPath, ledDevPath, bind, filesystem_exists. by intros ->.
Qed.

Lemma createLEDPath_refused (e : exception_t) :
  fs_exists env (ledDevPath name) = inr true ->
  physical_ctor env (ledObjPath name) = Some e ->
  createLEDPath env name m =
  (inl (Thrown e),
   mkMachine (leds m) (S (next_id m))
     (trace m ++ [NewSysfsLed sled; DeleteSysfsLed sled])).
Proof.
  unfold createLEDPath, ledDevPath, ledObjPath, canonicalId.
  unfold bind at 1. unfold filesystem_exists.
  intros -> Hctor. simpl.
  unfold bind, make_unique_SysfsLed, make_unique_Physical. simpl.
  rewrite Hctor. by rewrite <- app_assoc.
Qed.

Lemma createLEDPath_taken (old : Physical) :
  fs_exists env (ledDevPath name) = inr true ->
  physical_ctor env (ledObjPath name) = None ->
  leds m !! ledObjPath name = Some old ->
  createLEDPath env name m =
  (inr tt,
   mkMachine (leds m) (S (S (next_id m)))
     (trace m ++ [NewSysfsLed sled; NewPhysical phys;
                  DeletePhysical phys; DeleteSysfsLed sled])).
Proof.
  unfold createLEDPath, ledDevPath, ledObjPath, canonicalId.
  unfold bind at 1. unfold filesystem_exists.
  intros -> Hctor Hold. simpl.
  unfold bind, make_unique_SysfsLed, make_unique_Physical, leds_emplace. simpl.
  rewrite Hctor. simpl. rewrite Hold. unfold ret.
  by rewrite <- !app_assoc.
Qed.

Lemma createLEDPath_fresh :
  fs_exists env (ledDevPath name) = inr true ->
  physical_ctor env (ledObjPath name) = None ->
  leds m !! ledObjPath name = None ->
  createLEDPath env name m =
  (inr tt,
   mkMachine (<[ledObjPath name := phys]> (leds m)) (S (S (next_id m)))
     (trace m ++ [NewSysfsLed sled; NewPhysical phys])).
Proof.
  unfold createLEDPath, ledDevPath, ledObjPath, canonicalId.
  unfold bind at 1. unfold filesystem_exists.
  intros -> Hctor Hnew. simpl.
  unfold bind, make_unique_SysfsLed, make_unique_Physical, leds_emplace. simpl.
  rewrite Hctor. simpl. rewrite Hnew. unfold ret.
  by rewrite <- !app_assoc.
Qed.

(** Whatever the environment, a call only ever adds to [leds]. *)
Lemma createLEDPath_subseteq :
  leds m ⊆ leds (snd (createLEDPath env name m)).
Proof.
  destruct (fs_exists env (ledDevPath name)) as [fe|[|]] eqn:Hfs;
    [by rewrite (createLEDPath_stat_fails fe)| |].
  - destruct (physical_ctor env (ledObjPath name)) as [e|] eqn:Hctor.
    + by rewrite (createLEDPath_refused e).
    + destruct (leds m !! ledObjPath name) as [old|] eqn:Hkey.
      * by rewrite (createLEDPath_taken old).
      * rewrite createLEDPath_fresh by done. simpl.
        by apply insert_subseteq.
  - by rewrite createLEDPath_absent.
Qed.

(** And the trace only grows. *)
Lemma createLEDPath_trace :
  exists evs, trace (snd (createLEDPath env name m)) = trace m ++ evs.
Proof.
  destruct (fs_exists env (ledDevPath name)) as [fe|[|]] eqn:Hfs;
    [rewrite (createLEDPath_stat_fails fe) by done; exists []; by rewrite app_nil_r| |].
  - destruct (physical_ctor env (ledObjPath name)) as [e|] eqn:Hctor.
    + rewrite (createLEDPath_refused e) by done. by eexists.
    + destruct (leds m !! ledObjPath name) as [old|] eqn:Hkey.
      * rewrite (createLEDPath_taken old) by done. by eexists.
      * rewrite createLEDPath_fresh by done. by eexists.
  - rewrite createLEDPath_absent by done. by eexists.
Qed.

End CreateLEDPath.

Lemma events_since_app (before after : Machine) (evs : list Event) :
  trace after = trace before ++ evs -> events_since before after = evs.
Proof. unfold events_since. intros ->. by rewrite drop_app_length. Qed.

(** ** [addLED] and [removeLED] *)

(** C2. [removeLED] runs the very pipeline of [addLED], both being one call
    of [createLEDPath]: on every raw name and machine the two give the same
    result and the same machine, so do the two callbacks on every message,
    and a [removeLED] never takes an entry out of [leds]. *)
Theorem removeLED_is_addLED (env : Env) (name : string) (m : Machine) :
  removeLED env name = createLEDPath env name /\
  addLED env name = createLEDPath env name /\
  removeLED env name m = addLED env name m /\
  leds m ⊆ leds (snd (removeLED env name m)) /\
  (forall (message : sd_bus_message) (context : context_ptr),
      removeLedConfigure env (Some message) context m =
      addLedConfigure env (Some message) context m).
Proof.
  split; [reflexivity|]. split; [reflexivity|]. split; [reflexivity|].
  split; [apply createLEDPath_subseteq|].
  intros message context. reflexivity.
Qed.

Lemma perform_subseteq (env : Env) (c : Call) (m : Machine) :
  leds m ⊆ leds (snd (perform env c m)).
Proof. destruct c; apply createLEDPath_subseteq. Qed.

Lemma run_subseteq (calls : list (Env * Call)) (m : Machine) :
  leds m ⊆ leds (run calls m).
Proof.
  revert m. induction calls as [|[env c] rest IH]; intros m; simpl; [done|].
  etrans; [apply (perform_subseteq env c)|apply IH].
Qed.

Lemma run_app (calls1 calls2 : list (Env * Call)) (m : Machine) :
  run (calls1 ++ calls2) m = run calls2 (run calls1 m).
Proof.
  revert m. induction calls1 as [|[env c] rest IH]; intros m; simpl; [done|].
  apply IH.
Qed.

(** C9. Along every finite sequence of [addLED] and [removeLED] calls, in
    whatever environments, [leds] only grows: what is stored under a key at
    some point of the sequence is stored there, unchanged, at every later
    point, and the size of the map never goes down. *)
Theorem leds_monotone (calls1 calls2 : list (Env * Call)) (m : Machine) :
  leds (run calls1 m) ⊆ leds (run (calls1 ++ calls2) m) /\
  (forall (key : string) (p : Physical),
      leds (run calls1 m) !! key = Some p ->
      leds (run (calls1 ++ calls2) m) !! key = Some p) /\
  size (leds (run calls1 m)) <= size (leds (run (calls1 ++ calls2) m)).
Proof.
  rewrite run_app.
  pose proof (run_subseteq calls2 (run calls1 m)) as Hsub.
  split; [done|]. split.
  - intros key p Hkey. by eapply lookup_weaken.
  - by apply map_subseteq_size.
Qed.

Example remove_keeps_the_entry :
  let env := env_with ["/sys/class/leds/fan1:green"] in
  map_to_list (leds (run [(env, AddLED "fan1:green"); (env, RemoveLED "fan1:green")]
                       Machine_init)) =
  [("/xyz/openbmc_project/led/physical/fan1_green",
    mkPhysical 1 "/xyz/openbmc_project/led/physical/fan1_green"
      (mkSysfsLed 0 "/sys/class/leds/fan1:green") "green")].
Proof. vm_compute. reflexivity. Qed.

(** ** A device that does not exist *)

Lemma addLedConfigure_self (env : Env) (msg : option sd_bus_message) (m : Machine) :
  addLedConfigure env msg context_self m =
  try_catch env (guarded_body env msg context_self (addLED env)) m.
Proof. unfold addLedConfigure. simpl. by rewrite andb_false_r. Qed.

Lemma removeLedConfigure_self (env : Env) (msg : option sd_bus_message) (m : Machine) :
  removeLedConfigure env msg context_self m =
  try_catch env (guarded_body env msg context_self (removeLED env)) m.
Proof. unfold removeLedConfigure. simpl. by rewrite andb_false_r. Qed.






(** ** A null callback context *)

(** C8. The guard of the two callbacks fires only when the message and the
    context are both null. With a message that carries a name and a null
    context the guard is passed, no -EINVAL is returned, and the member call
    goes through the null pointer. *)
Theorem null_context_with_message (env : Env) (name : string)
    (reply : option exception_t) (m : Machine) :
  addLedConfigure env (Some (mkMessage (inr name) reply)) context_null m = Undefined /\
  removeLedConfigure env (Some (mkMessage (inr name) reply)) context_null m = Undefined /\
  addLedConfigure env None context_null m =
    Returned (- EINVAL)
      (mkMachine (leds m) (next_id m)
         (trace m ++ [LogError "Unable to configure addLed" []])) /\
  removeLedConfigure env None context_null m =
    Returned (- EINVAL)
      (mkMachine (leds m) (next_id m)
         (trace m ++ [LogError "Unable to configure removeLed" []])).
Proof. repeat split. Qed.

(** ** The empty name *)





(** ** Adding the same name twice *)

Lemma not_replaced_by_call (key : string) (before after : Machine) (old : Physical) :
  leds before !! key = Some old ->
  ~ In (DeletePhysical old) (events_since before after) ->
  ~ replaced_by_call key before after.
Proof.
  intros Hold Hkept (old' & new & Hold' & _ & _ & Hdel).
  rewrite Hold in Hold'. injection Hold' as <-. by apply Hkept.
Qed.

(** C1, as stated, does not hold: after two [addLED "x:red:status"] from
    an empty registry there is one entry under
    [/xyz/openbmc_project/led/physical/x_status_red], but it is the object
    the first call built; the object the second call built is destroyed
    together with its handle. It is the same when the second construction is
    refused by the bus. *)
Lemma second_add_does_not_replace :
  let env := env_with ["/sys/class/leds/x:red:status"] in
  let env' := env_refusing ["/sys/class/leds/x:red:status"] file_exists in
  let key := "/xyz/openbmc_project/led/physical/x_status_red" in
  let dir := "/sys/class/leds/x:red:status" in
  let first := mkPhysical 1 key (mkSysfsLed 0 dir) "red" in
  let second := mkPhysical 3 key (mkSysfsLed 2 dir) "red" in
  let m1 := snd (addLED env "x:red:status" Machine_init) in
  let m2 := snd (addLED env "x:red:status" m1) in
  let m2' := snd (addLED env' "x:red:status" m1) in
  map_to_list (leds m1) = [(key, first)] /\
  map_to_list (leds m2) = [(key, first)] /\
  events_since m1 m2 =
    [NewSysfsLed (mkSysfsLed 2 dir); NewPhysical second;
     DeletePhysical second; DeleteSysfsLed (mkSysfsLed 2 dir)] /\
  leds m2 !! key <> Some second /\
  ~ replaced_by_call key m1 m2 /\
  map_to_list (leds m2') = [(key, first)] /\
  ~ replaced_by_call key m1 m2'.
Proof.
  intros env env' key dir first second m1 m2 m2'.
  assert (leds m1 !! key = Some first) as Hfirst by (vm_compute; reflexivity).
  split; [vm_compute; reflexivity|]. split; [vm_compute; reflexivity|].
  split; [vm_compute; reflexivity|]. split; [vm_compute; discriminate|].
  split.
  - apply (not_replaced_by_call key m1 m2 first Hfirst).
    vm_compute. intros [H|[H|[H|[H|[]]]]]; discriminate H.
  - split; [vm_compute; reflexivity|].
    apply (not_replaced_by_call key m1 m2' first Hfirst).
    vm_compute. intros [H|[H|[]]]; discriminate H.
Qed.

(** What a later call does once the key is taken: [leds] is as before,
    neither the object stored under the key nor its handle is destroyed, and
    every [Physical] and every handle the call builds is destroyed by it. *)
Lemma createLEDPath_on_taken (env : Env) (name : string) (m : Machine) (old : Physical) :
  leds m !! ledObjPath name = Some old ->
  phys_id old <> S (next_id m) ->
  sled_id (phys_led old) <> next_id m ->
  let m' := snd (createLEDPath env name m) in
  leds m' = leds m /\
  ~ In (DeletePhysical old) (events_since m m') /\
  ~ In (DeleteSysfsLed (phys_led old)) (events_since m m') /\
  (forall p, In (NewPhysical p) (events_since m m') ->
             In (DeletePhysical p) (events_since m m') /\
             In (DeleteSysfsLed (phys_led p)) (events_since m m')) /\
  (forall led, In (NewSysfsLed led) (events_since m m') ->
               In (DeleteSysfsLed led) (events_since m m')).
Proof.
  intros Hold Hid Hsid m'. subst m'.
  destruct (fs_exists env (ledDevPath name)) as [fe|[|]] eqn:Hfs.
  - rewrite (createLEDPath_stat_fails env name m fe Hfs). simpl.
    rewrite (events_since_app m m []) by (by rewrite app_nil_r).
    split; [done|]. split; [by intros []|]. split; [by intros []|].
    split; [by intros p []|by intros led []].
  - destruct (physical_ctor env (ledObjPath name)) as [e|] eqn:Hctor.
    + rewrite (createLEDPath_refused env name m e Hfs Hctor). simpl.
      erewrite events_since_app by reflexivity.
      split; [done|]. split; [|split; [|split]].
      * intros [H|[H|[]]]; discriminate H.
      * intros [H|[H|[]]]; [discriminate H|].
        injection H as H. apply Hsid. rewrite <- H. reflexivity.
      * intros p [H|[H|[]]]; discriminate H.
      * intros led [H|[H|[]]]; [|discriminate H].
        injection H as <-. simpl. auto.
    + rewrite (createLEDPath_taken env name m old Hfs Hctor Hold). simpl.
      erewrite events_since_app by reflexivity.
      split; [done|]. split; [|split; [|split]].
      * intros [H|[H|[H|[H|[]]]]]; try discriminate H.
        injection H as <-. simpl in Hid. by apply Hid.
      * intros [H|[H|[H|[H|[]]]]]; try discriminate H.
        injection H as H. apply Hsid. rewrite <- H. reflexivity.
      * intros p [H|[H|[H|[H|[]]]]]; try discriminate H.
        injection H as <-. split; simpl; auto 10.
      * intros led [H|[H|[H|[H|[]]]]]; try discriminate H.
        injection H as <-. simpl. auto.
  - rewrite (createLEDPath_absent env name m Hfs). simpl.
    erewrite events_since_app by reflexivity.
    split; [done|]. split; [|split; [|split]].
    + intros [H|[]]; discriminate H.
    + intros [H|[]]; discriminate H.
    + intros p [H|[]]; discriminate H.
    + intros led [H|[]]; discriminate H.
Qed.

(** C1, amended. Two successive [addLED] of one name whose directory exists,
    whose control object is built by the first call and whose key was free,
    leave exactly one entry more than before, under the key of the name, and
    that entry is the object built by the first call: [emplace] keeps the
    element already there. Neither the first object nor its device handle is
    destroyed, by the first call or by the second; whatever control object
    and device handle the second call builds are destroyed by that call. *)
Theorem add_twice_keeps_first (env1 env2 : Env) (name : string) (m : Machine) :
  fs_exists env1 (ledDevPath name) = inr true ->
  physical_ctor env1 (ledObjPath name) = None ->
  leds m !! ledObjPath name = None ->
  let first :=
    mkPhysical (S (next_id m)) (ledObjPath name)
      (mkSysfsLed (next_id m) (ledDevPath name))
      (color (getLedDescr name LedDescr_default)) in
  let m1 := snd (addLED env1 name m) in
  let m2 := snd (addLED env2 name m1) in
  leds m1 = <[ledObjPath name := first]> (leds m) /\
  leds m2 = <[ledObjPath name := first]> (leds m) /\
  leds m2 !! ledObjPath name = Some first /\
  size (leds m2) = S (size (leds m)) /\
  events_since m m1 = [NewSysfsLed (phys_led first); NewPhysical first] /\
  ~ In (DeletePhysical first) (events_since m1 m2) /\
  ~ In (DeleteSysfsLed (phys_led first)) (events_since m1 m2) /\
  (forall p, In (NewPhysical p) (events_since m1 m2) ->
             In (DeletePhysical p) (events_since m1 m2) /\
             In (DeleteSysfsLed (phys_led p)) (events_since m1 m2)) /\
  (forall led, In (NewSysfsLed led) (events_since m1 m2) ->
               In (DeleteSysfsLed led) (events_since m1 m2)) /\
  ~ replaced_by_call (ledObjPath name) m1 m2.
Proof.
  intros Hfs Hctor Hfree first m1 m2.
  pose proof (createLEDPath_fresh env1 name m Hfs Hctor Hfree) as Hcall1.
  assert (leds m1 = <[ledObjPath name := first]> (leds m)) as Hleds1.
  { subst m1. unfold addLED. by rewrite Hcall1. }
  assert (next_id m1 = S (S (next_id m))) as Hnext1.
  { subst m1. unfold addLED. by rewrite Hcall1. }
  assert (events_since m m1 = [NewSysfsLed (phys_led first); NewPhysical first])
    as Hevents1.
  { apply events_since_app. subst m1. unfold addLED. by rewrite Hcall1. }
  assert (leds m1 !! ledObjPath name = Some first) as Hlive1.
  { rewrite Hleds1. apply lookup_insert_eq. }
  assert (phys_id first <> S (next_id m1)) as Hid.
  { rewrite Hnext1. simpl. lia. }
  assert (sled_id (phys_led first) <> next_id m1) as Hsid.
  { rewrite Hnext1. simpl. lia. }
  destruct (createLEDPath_on_taken env2 name m1 first Hlive1 Hid Hsid)
    as (Hleds2 & Hkept & Hheld & Hgone & Hreleased).
  fold (addLED env2 name m1) in Hleds2, Hkept, Hheld, Hgone, Hreleased.
  fold m2 in Hleds2, Hkept, Hheld, Hgone, Hreleased.
  split; [exact Hleds1|]. split; [congruence|]. split; [congruence|].
  split; [rewrite Hleds2, Hleds1; by apply map_size_insert_None|].
  split; [exact Hevents1|].
  split; [exact Hkept|]. split; [exact Hheld|].
  split; [exact Hgone|]. split; [exact Hreleased|].
  by apply (not_replaced_by_call _ m1 m2 first).
Qed.

Lemma add_twice_keeps_first_witness :
  let env := env_with ["/sys/class/leds/x:red:status"] in
  leds (snd (addLED env "x:red:status" (snd (addLED env "x:red:status" Machine_init))))
    !! ledObjPath "x:red:status" =
  Some (mkPhysical 1 "/xyz/openbmc_project/led/physical/x_status_red"
          (mkSysfsLed 0 "/sys/class/leds/x:red:status") "red").
Proof.
  exact (proj1 (proj2 (proj2
    (add_twice_keeps_first
       (env_with ["/sys/class/leds/x:red:status"])
       (env_with ["/sys/class/leds/x:red:status"])
       "x:red:status" Machine_init eq_refl eq_refl eq_refl)))).
Defined.

(** ** More on splitting and joining *)

Lemma is_any_of_colon (c : ascii) : boost.is_any_of ":" c = true <-> c = ":"%char.
Proof.
  simpl. destruct (Ascii.eqb c ":") eqn:Heq.
  - apply Ascii.eqb_eq in Heq. by split.
  - apply Ascii.eqb_neq in Heq. by split.
Qed.

Lemma split_cons (pred : ascii -> bool) (s : string) :
  exists w ws, boost.split pred s = w :: ws.
Proof.
  pose proof (split_length pred s) as Hlen.
  destruct (boost.split pred s) as [|w ws]; [discriminate Hlen|by eauto].
Qed.

Lemma count_sep_app (pred : ascii -> bool) (a b : string) :
  count_sep pred (a +:+ b) = count_sep pred a + count_sep pred b.
Proof. induction a as [|c a IH]; simpl; [done|]. rewrite IH. lia. Qed.

Lemma count_sep_join (pred : ascii -> bool) (words : list string) (sep : string) :
  Forall (fun w => count_sep pred w = 0) words ->
  count_sep pred sep = 0 ->
  count_sep pred (boost.join words sep) = 0.
Proof.
  intros Hwords Hsep. induction Hwords as [|w ws Hw Hws IH]; [done|].
  destruct ws as [|w' ws']; [exact Hw|].
  change (count_sep pred (w +:+ sep +:+ boost.join (w' :: ws') sep) = 0).
  rewrite !count_sep_app, Hw, Hsep, IH. done.
Qed.

Lemma split_String (pred : ascii -> bool) (c : ascii) (rest : string) :
  boost.split pred (String c rest) =
  if pred c then "" :: boost.split pred rest
  else match boost.split pred rest with
       | w :: ws => String c w :: ws
       | [] => [String c ""]
       end.
Proof. reflexivity. Qed.

(** X1. Joining the segments of a raw name with colons gives the name back:
    the split loses nothing, whatever the name. *)
Theorem segments_join (name : string) :
  boost.join (segments name) ":" = name.
Proof.
  unfold segments. induction name as [|c rest IH]; [done|].
  rewrite split_String.
  destruct (split_cons (boost.is_any_of ":") rest) as (w & ws & Hsplit).
  rewrite Hsplit in IH |- *.
  destruct (boost.is_any_of ":" c) eqn:Hc.
  - apply is_any_of_colon in Hc. subst c.
    change (":" +:+ boost.join (w :: ws) ":" = String ":" rest).
    by rewrite IH.
  - destruct ws as [|w' ws'].
    + simpl in IH |- *. by rewrite IH.
    + change (String c (w +:+ ":" +:+ boost.join (w' :: ws') ":") = String c rest).
      f_equal. exact IH.
Qed.

Lemma split_colon_free (name : string) :
  Forall (fun w => count_sep (boost.is_any_of ":") w = 0) (segments name).
Proof.
  unfold segments. induction name as [|c rest IH]; [by repeat constructor|].
  rewrite split_String.
  destruct (split_cons (boost.is_any_of ":") rest) as (w & ws & Hsplit).
  rewrite Hsplit in IH |- *.
  destruct (boost.is_any_of ":" c) eqn:Hc.
  - by constructor.
  - inversion IH as [|? ? Hw Hws]; subst. constructor; [|done].
    cbn [count_sep]. by rewrite Hc, Hw.
Qed.

(** X2. No segment of a raw name contains a colon, and there is one segment
    more than there are colons in the name. *)
Theorem segments_colon_free (name : string) :
  Forall (fun w => count_sep (boost.is_any_of ":") w = 0) (segments name) /\
  length (segments name) = S (count_sep (boost.is_any_of ":") name).
Proof. split; [apply split_colon_free|apply split_length]. Qed.

Lemma getLedDescr_by_segments (name : string) (d : LedDescr) :
  exists s0 rest,
    segments name = s0 :: rest /\
    getLedDescr name d =
      mkLedDescr s0 (default (color d) (rest !! 0)) (default (function d) (rest !! 1)).
Proof.
  destruct (split_cons (boost.is_any_of ":") name) as (s0 & rest & Hsplit).
  exists s0, rest. split; [exact Hsplit|].
  unfold getLedDescr. rewrite Hsplit.
  destruct rest as [|s1 [|s2 rest']]; reflexivity.
Qed.

(** X3. The parser always sets the device name to the first segment. The
    colour is set to the second segment and the function to the third only
    where the name has them: a field the name does not reach keeps the value
    the descriptor came in with. *)
Theorem getLedDescr_fields (name : string) (d : LedDescr) :
  exists s0 rest,
    segments name = s0 :: rest /\
    getLedDescr name d =
      mkLedDescr s0 (default (color d) (rest !! 0)) (default (function d) (rest !! 1)).
Proof. exact (getLedDescr_by_segments name d). Qed.

Lemma getLedDescr_two_segments (name s0 s1 : string) (d : LedDescr) :
  segments name = [s0; s1] -> getLedDescr name d = mkLedDescr s0 s1 (function d).
Proof. unfold getLedDescr, segments. by intros ->. Qed.

(** X4. A raw name with exactly two segments gives a descriptor with the
    first as device name and the second as colour, the function left as it
    was; from a fresh descriptor the id is the two joined by an underscore,
    or the device name alone when the colour is empty. *)
Theorem two_segments_canonical_id (name s0 s1 : string) (d : LedDescr) :
  segments name = [s0; s1] ->
  getLedDescr name d = mkLedDescr s0 s1 (function d) /\
  canonicalId name = (if empty s1 then s0 else s0 +:+ "_" +:+ s1).
Proof.
  intros Hseg. split; [by apply getLedDescr_two_segments|].
  unfold canonicalId. rewrite (getLedDescr_two_segments _ _ _ _ Hseg).
  rewrite getDbusName_fields. simpl. by destruct (empty s1).
Qed.

Lemma two_segments_canonical_id_witness :
  getLedDescr "fan1:green" (mkLedDescr "x" "y" "z") = mkLedDescr "fan1" "green" "z" /\
  canonicalId "fan1:green" = "fan1_green".
Proof.
  exact (two_segments_canonical_id "fan1:green" "fan1" "green"
           (mkLedDescr "x" "y" "z") eq_refl).
Defined.

Lemma append_empty (a b : string) : a +:+ b = "" -> a = "" /\ b = "".
Proof. destruct a; simpl; [done|discriminate]. Qed.

(** X5. The formatter gives the empty string exactly when the device name,
    the function and the colour are all empty. *)
Theorem getDbusName_empty (d : LedDescr) :
  getDbusName d = "" <->
  devicename d = "" /\ function d = "" /\ color d = "".
Proof.
  destruct d as [dn c f]. rewrite getDbusName_fields. simpl. split.
  - destruct f as [|cf f], c as [|cc c]; simpl; intros H.
    + by subst dn.
    + apply append_empty in H as [_ H]. discriminate H.
    + apply append_empty in H as [_ H]. discriminate H.
    + apply append_empty in H as [_ H]. discriminate H.
  - by intros (-> & -> & ->).
Qed.

Lemma getLedDescr_colon_free (name : string) :
  let d := getLedDescr name LedDescr_default in
  Forall (fun w => count_sep (boost.is_any_of ":") w = 0)
    [devicename d; function d; color d].
Proof.
  intros d. subst d.
  destruct (getLedDescr_by_segments name LedDescr_default) as (s0 & rest & Hseg & ->).
  pose proof (split_colon_free name) as Hfree. rewrite Hseg in Hfree.
  inversion Hfree as [|? ? H0 Hrest]; subst. simpl.
  destruct rest as [|s1 rest]; [by repeat constructor|].
  inversion Hrest as [|? ? H1 Hrest']; subst.
  destruct rest as [|s2 rest]; [by repeat constructor|].
  inversion Hrest' as [|? ? H2 _]; subst.
  by repeat constructor.
Qed.

Lemma canonicalId_count_sep (name : string) :
  count_sep (boost.is_any_of ":") (canonicalId name) = 0.
Proof.
  unfold canonicalId.
  pose proof (getLedDescr_colon_free name) as Hfree. simpl in Hfree.
  destruct (getLedDescr name LedDescr_default) as [dn c f]. simpl in Hfree.
  inversion Hfree as [|? ? Hdn Hrest]; subst.
  inversion Hrest as [|? ? Hf Hrest']; subst.
  inversion Hrest' as [|? ? Hc _]; subst.
  rewrite getDbusName_fields. apply count_sep_join; [|done].
  constructor; [done|]. apply Forall_app. split.
  - destruct (empty f); by repeat constructor.
  - destruct (empty c); by repeat constructor.
Qed.

(** X6. The canonical id of a raw name never contains a colon. *)
Theorem canonicalId_colon_free (name : string) :
  count_sep (boost.is_any_of ":") (canonicalId name) = 0.
Proof. exact (canonicalId_count_sep name). Qed.

(** X7. Deriving the canonical id is idempotent: the id of a raw name, read
    as a raw name again, is its own id. *)
Theorem canonicalId_idempotent (name : string) :
  canonicalId (canonicalId name) = canonicalId name.
Proof.
  pose proof (canonicalId_count_sep name) as Hfree.
  generalize dependent (canonicalId name). intros id Hfree.
  unfold canonicalId.
  rewrite (getLedDescr_one id _ (split_no_separator _ _ Hfree)).
  reflexivity.
Qed.

(** ** More on the registry *)

Lemma createLEDPath_leds_cases (env : Env) (name : string) (m : Machine) :
  leds (snd (createLEDPath env name m)) =
  match leds m !! ledObjPath name with
  | Some _ => leds m
  | None =>
      if reaches_emplace env name
      then <[ledObjPath name := new_phys name m]> (leds m)
      else leds m
  end.
Proof.
  unfold reaches_emplace.
  destruct (fs_exists env (ledDevPath name)) as [fe|[|]] eqn:Hfs; simpl.
  - rewrite (createLEDPath_stat_fails env name m fe Hfs). simpl.
    by destruct (leds m !! ledObjPath name).
  - destruct (physical_ctor env (ledObjPath name)) as [e|] eqn:Hctor.
    + rewrite (createLEDPath_refused env name m e Hfs Hctor). simpl.
      by destruct (leds m !! ledObjPath name).
    + destruct (leds m !! ledObjPath name) as [old|] eqn:Hkey.
      * by rewrite (createLEDPath_taken env name m old Hfs Hctor Hkey).
      * by rewrite (createLEDPath_fresh env name m Hfs Hctor Hkey).
  - rewrite (createLEDPath_absent env name m Hfs). simpl.
    by destruct (leds m !! ledObjPath name).
Qed.

(** X8. What one call does to [leds], in every environment: it inserts the
    control object it builds exactly when the directory exists, the object is
    built and the key of the name is free; in every other case [leds] is left
    as it was. *)
Theorem createLEDPath_leds (env : Env) (name : string) (m : Machine) :
  leds (snd (createLEDPath env name m)) =
  match leds m !! ledObjPath name with
  | Some _ => leds m
  | None =>
      if reaches_emplace env name
      then <[ledObjPath name := new_phys name m]> (leds m)
      else leds m
  end.
Proof. exact (createLEDPath_leds_cases env name m). Qed.

Lemma perform_createLEDPath (env : Env) (c : Call) :
  perform env c = createLEDPath env (call_name c).
Proof. by destruct c. Qed.

Lemma createLEDPath_dom (env : Env) (name : string) (m : Machine) :
  dom (leds (snd (createLEDPath env name m))) =
  dom (leds m) ∪ (if reaches_emplace env name then {[ledObjPath name]} else ∅).
Proof.
  rewrite createLEDPath_leds_cases.
  destruct (leds m !! ledObjPath name) as [old|] eqn:Hkey.
  - assert (ledObjPath name ∈ dom (leds m)) by (apply elem_of_dom; eauto).
    destruct (reaches_emplace env name); set_solver.
  - destruct (reaches_emplace env name); [|set_solver].
    rewrite dom_insert_L. set_solver.
Qed.

(** X9. The set of registered object paths after any sequence of calls is
    the set before it together with the keys of the calls whose directory
    existed and whose control object was built; it depends neither on the
    order of the calls nor on whether they were [AddLED] or [RemoveLED]. *)
Theorem run_dom (calls : list (Env * Call)) (m : Machine) :
  dom (leds (run calls m)) = dom (leds m) ∪ emplaced_keys calls.
Proof.
  revert m. induction calls as [|[env c] rest IH]; intros m; simpl.
  - set_solver.
  - rewrite IH, perform_createLEDPath, createLEDPath_dom. set_solver.
Qed.

Lemma createLEDPath_size (env : Env) (name : string) (m : Machine) :
  size (leds (snd (createLEDPath env name m))) <= S (size (leds m)).
Proof.
  rewrite createLEDPath_leds_cases.
  destruct (leds m !! ledObjPath name) as [old|] eqn:Hkey; [lia|].
  destruct (reaches_emplace env name); [|lia].
  rewrite map_size_insert_None by done. lia.
Qed.

(** X10. A call adds at most one entry: after a sequence of calls the
    registry has at most as many entries more as there were calls. *)
Theorem run_size (calls : list (Env * Call)) (m : Machine) :
  size (leds (run calls m)) <= size (leds m) + length calls.
Proof.
  revert m. induction calls as [|[env c] rest IH]; intros m; simpl; [lia|].
  specialize (IH (snd (perform env c m))).
  rewrite perform_createLEDPath in IH |- *.
  pose proof (createLEDPath_size env (call_name c) m). lia.
Qed.

Lemma createLEDPath_again (env : Env) (name : string) (m : Machine) :
  let m1 := snd (createLEDPath env name m) in
  leds (snd (createLEDPath env name m1)) = leds m1.
Proof.
  intros m1. rewrite (createLEDPath_leds_cases env name m1).
  destruct (leds m1 !! ledObjPath name) as [p|] eqn:Hkey1; [done|].
  destruct (reaches_emplace env name) eqn:Hreach; [|done].
  exfalso. subst m1. rewrite createLEDPath_leds_cases, Hreach in Hkey1.
  destruct (leds m !! ledObjPath name) as [old|] eqn:Hkey.
  - by rewrite Hkey in Hkey1.
  - by rewrite lookup_insert_eq in Hkey1.
Qed.

(** X11. Repeating a call in the same environment changes nothing more:
    after an [addLED] of a name, neither a second [addLED] nor a [removeLED]
    of that name alters [leds]. *)
Theorem repeated_call_keeps_leds (env : Env) (name : string) (m : Machine) :
  leds (snd (addLED env name (snd (addLED env name m)))) =
    leds (snd (addLED env name m)) /\
  leds (snd (removeLED env name (snd (addLED env name m)))) =
    leds (snd (addLED env name m)).
Proof. split; apply createLEDPath_again. Qed.

Lemma createLEDPath_entry_ok (env : Env) (name : string) (m : Machine) :
  map_Forall entry_ok (leds m) ->
  map_Forall entry_ok (leds (snd (createLEDPath env name m))).
Proof.
  intros Hok. rewrite createLEDPath_leds_cases.
  destruct (leds m !! ledObjPath name) as [old|] eqn:Hkey; [done|].
  destruct (reaches_emplace env name); [|done].
  apply map_Forall_insert_2; [|done].
  split; [reflexivity|]. by exists name.
Qed.

Lemma run_entry_ok (calls : list (Env * Call)) (m : Machine) :
  map_Forall entry_ok (leds m) -> map_Forall entry_ok (leds (run calls m)).
Proof.
  revert m. induction calls as [|[env c] rest IH]; intros m Hok; simpl; [done|].
  apply IH. rewrite perform_createLEDPath. by apply createLEDPath_entry_ok.
Qed.

(** X12. Starting from the empty registry, after any sequence of calls every
    entry is stored under the object path it was built with, that path is the
    key of some raw name, the handle of the entry is over the sysfs directory
    of that name, and its colour is the colour parsed from that name. *)
Theorem registry_entries_ok (calls : list (Env * Call)) :
  map_Forall entry_ok (leds (run calls Machine_init)).
Proof. apply run_entry_ok. apply map_Forall_empty. Qed.

(** X13. Nothing a call builds is left dangling: every control object built
    during the call is the live entry under its path or was destroyed by the
    call, and every handle built during the call is owned by a live entry or
    was destroyed by the call. *)
Theorem createLEDPath_accounts (env : Env) (name : string) (m : Machine) :
  let m' := snd (createLEDPath env name m) in
  (forall p, In (NewPhysical p) (events_since m m') -> physical_accounted m m' p) /\
  (forall led, In (NewSysfsLed led) (events_since m m') -> handle_accounted m m' led).
Proof.
  intros m'. subst m'. unfold physical_accounted, handle_accounted.
  destruct (fs_exists env (ledDevPath name)) as [fe|[|]] eqn:Hfs.
  - rewrite (createLEDPath_stat_fails env name m fe Hfs). simpl.
    rewrite (events_since_app m m []) by (by rewrite app_nil_r).
    split; [by intros p []|by intros led []].
  - destruct (physical_ctor env (ledObjPath name)) as [e|] eqn:Hctor.
    + rewrite (createLEDPath_refused env name m e Hfs Hctor). simpl.
      erewrite events_since_app by reflexivity. split.
      * intros p [H|[H|[]]]; discriminate H.
      * intros led [H|[H|[]]]; [|discriminate H].
        injection H as <-. right. simpl. auto.
    + destruct (leds m !! ledObjPath name) as [old|] eqn:Hkey.
      * rewrite (createLEDPath_taken env name m old Hfs Hctor Hkey). simpl.
        erewrite events_since_app by reflexivity. split.
        -- intros p [H|[H|[H|[H|[]]]]]; try discriminate H.
           injection H as <-. right. simpl. auto.
        -- intros led [H|[H|[H|[H|[]]]]]; try discriminate H.
           injection H as <-. right. simpl. auto.
      * rewrite (createLEDPath_fresh env name m Hfs Hctor Hkey). simpl.
        erewrite events_since_app by reflexivity. split.
        -- intros p [H|[H|[]]]; try discriminate H.
           injection H as <-. left. simpl. apply lookup_insert_eq.
        -- intros led [H|[H|[]]]; try discriminate H.
           injection H as <-. left. eexists _, _.
           split; [apply lookup_insert_eq|reflexivity].
  - rewrite (createLEDPath_absent env name m Hfs). simpl.
    erewrite events_since_app by reflexivity. split.
    + intros p [H|[]]; discriminate H.
    + intros led [H|[]]; discriminate H.
Qed.

Lemma createLEDPath_fst (env : Env) (name : string) (m : Machine) :
  fst (createLEDPath env name m) =
  match fs_exists env (ledDevPath name) with
  | inl fe => inl (ThrownFs fe)
  | inr true =>
      match physical_ctor env (ledObjPath name) with
      | Some e => inl (Thrown e)
      | None => inr tt
      end
  | inr false => inr tt
  end.
Proof.
  destruct (fs_exists env (ledDevPath name)) as [fe|[|]] eqn:Hfs.
  - by rewrite (createLEDPath_stat_fails env name m fe Hfs).
  - destruct (physical_ctor env (ledObjPath name)) as [e|] eqn:Hctor.
    + by rewrite (createLEDPath_refused env name m e Hfs Hctor).
    + destruct (leds m !! ledObjPath name) as [old|] eqn:Hkey.
      * by rewrite (createLEDPath_taken env name m old Hfs Hctor Hkey).
      * by rewrite (createLEDPath_fresh env name m Hfs Hctor Hkey).
  - by rewrite (createLEDPath_absent env name m Hfs).
Qed.

(** X14. A call lets out exactly two exceptions: the filesystem error the
    existence check throws when the status of the directory cannot be read,
    and, once the directory exists, the one the constructor of the control
    object throws. A directory that is not there and a key already taken
    both end the call normally. *)
Theorem createLEDPath_result (env : Env) (name : string) (m : Machine) :
  fst (createLEDPath env name m) =
  match fs_exists env (ledDevPath name) with
  | inl fe => inl (ThrownFs fe)
  | inr true =>
      match physical_ctor env (ledObjPath name) with
      | Some e => inl (Thrown e)
      | None => inr tt
      end
  | inr false => inr tt
  end.
Proof. exact (createLEDPath_fst env name m). Qed.

(** ** More on the callbacks *)

Lemma guarded_body_ends (env : Env) (msg : option sd_bus_message) (m : Machine) :
  callback_ends env msg m
    (try_catch env (guarded_body env msg context_self (createLEDPath env)) m).
Proof.
  unfold callback_ends, try_catch, guarded_body, bind, message_unpack,
    message_method_return, through, throw, ret, emit, error_rc, error_set.
  destruct msg as [message|]; simpl.
  - destruct (msg_payload message) as [e|name] eqn:Hpayload; simpl.
    + left. eexists _, _. split; [reflexivity|]. split; [done|].
      right. exists e. split; [done|]. simpl. by rewrite last_snoc.
    + pose proof (createLEDPath_fst env name m) as Hres.
      pose proof (createLEDPath_subseteq env name m) as Hsub.
      destruct (fs_exists env (ledDevPath name)) as [fe|found] eqn:Hfs.
      * rewrite (createLEDPath_stat_fails env name m fe Hfs).
        right. exists fe, message, name. by rewrite Hpayload.
      * destruct (createLEDPath env name m) as [r m1]. simpl in Hres, Hsub.
        left. destruct r as [[e|fe|]|[]].
        -- eexists _, _. split; [reflexivity|]. split; [done|].
           right. exists e. split; [done|]. simpl. by rewrite last_snoc.
        -- exfalso. destruct found; [|discriminate Hres].
           destruct (physical_ctor env (ledObjPath name)); discriminate Hres.
        -- exfalso. destruct found; [|discriminate Hres].
           destruct (physical_ctor env (ledObjPath name)); discriminate Hres.
        -- destruct (msg_reply message) as [e|]; simpl.
           ++ eexists _, _. split; [reflexivity|]. split; [done|].
              right. exists e. split; [done|]. simpl. by rewrite last_snoc.
           ++ eexists _, _. split; [reflexivity|]. split; [done|]. by left.
  - left. eexists _, _. split; [reflexivity|]. split; [done|].
    right. exists (null_message_error env). split; [done|]. simpl. by rewrite last_snoc.
Qed.

(** X15. Called with the interface object as context, a callback never runs
    into undefined behaviour, whatever the message and the environment. It
    returns, [leds] having only grown, with 1 or else with what
    [sd_bus_error_set] gave for a caught exception, which is then the last
    thing recorded; or, when the message carries a name for whose directory
    the existence check throws, that filesystem error passes the [catch] and
    leaves the callback, the machine being as it was. *)
Theorem callback_outcome (env : Env) (msg : option sd_bus_message) (m : Machine) :
  callback_ends env msg m (addLedConfigure env msg context_self m) /\
  callback_ends env msg m (removeLedConfigure env msg context_self m).
Proof.
  rewrite addLedConfigure_self, removeLedConfigure_self.
  split; apply guarded_body_ends.
Qed.

(** X16. When the argument cannot be read the callbacks stop at the
    unpacking: they return what [sd_bus_error_set] gives for the exception and
    touch neither [leds] nor any object. For a message whose payload is not a
    string this holds whatever the context, null included; for a null message
    it holds with the interface object as context. *)
Theorem unreadable_argument (env : Env) (e : exception_t)
    (reply : option exception_t) (context : context_ptr) (m : Machine) :
  addLedConfigure env (Some (mkMessage (inl e) reply)) context m =
    Returned (error_rc env e)
      (mkMachine (leds m) (next_id m) (trace m ++ [error_set e])) /\
  removeLedConfigure env (Some (mkMessage (inl e) reply)) context m =
    Returned (error_rc env e)
      (mkMachine (leds m) (next_id m) (trace m ++ [error_set e])) /\
  addLedConfigure env None context_self m =
    Returned (error_rc env (null_message_error env))
      (mkMachine (leds m) (next_id m) (trace m ++ [error_set (null_message_error env)])) /\
  removeLedConfigure env None context_self m =
    Returned (error_rc env (null_message_error env))
      (mkMachine (leds m) (next_id m) (trace m ++ [error_set (null_message_error env)])).
Proof. by destruct context. Qed.

Lemma guarded_body_present (env : Env) (name : string)
    (reply : option exception_t) (m : Machine) :
  fs_exists env (ledDevPath name) = inr true ->
  physical_ctor env (ledObjPath name) = None ->
  leds m !! ledObjPath name = None ->
  try_catch env
    (guarded_body env (Some (mkMessage (inr name) reply)) context_self
       (createLEDPath env)) m =
  Returned
    (match reply with None => 1%Z | Some e => error_rc env e end)
    (mkMachine (<[ledObjPath name := new_phys name m]> (leds m)) (S (S (next_id m)))
       (trace m ++ [NewSysfsLed (new_sled name m); NewPhysical (new_phys name m);
                    match reply with None => MethodReturn | Some e => error_set e end])).
Proof.
  intros Hfs Hctor Hkey.
  unfold try_catch, guarded_body, bind, message_unpack, message_method_return,
    through, ret. simpl.
  rewrite (createLEDPath_fresh env name m Hfs Hctor Hkey).
  destruct reply as [e|]; simpl; by rewrite <- app_assoc.
Qed.

(** X17. When the directory exists, the control object is built and the key
    is free, a callback registers the LED whether or not the method return
    can be sent: with the reply sent it returns 1; when sending the reply
    throws it returns the error value, and the entry stays in [leds]. *)
Theorem present_device_is_registered (env : Env) (name : string)
    (reply : option exception_t) (m : Machine) :
  fs_exists env (ledDevPath name) = inr true ->
  physical_ctor env (ledObjPath name) = None ->
  leds m !! ledObjPath name = None ->
  let after :=
    Returned
      (match reply with None => 1%Z | Some e => error_rc env e end)
      (mkMachine (<[ledObjPath name := new_phys name m]> (leds m)) (S (S (next_id m)))
         (trace m ++ [NewSysfsLed (new_sled name m); NewPhysical (new_phys name m);
                      match reply with None => MethodReturn | Some e => error_set e end])) in
  addLedConfigure env (Some (mkMessage (inr name) reply)) context_self m = after /\
  removeLedConfigure env (Some (mkMessage (inr name) reply)) context_self m = after.
Proof.
  intros Hfs Hctor Hkey after. subst after.
  rewrite addLedConfigure_self, removeLedConfigure_self.
  split; by apply guarded_body_present.
Qed.

Lemma present_device_is_registered_witness :
  let env := env_with ["/sys/class/leds/fan1:green"] in
  let key := "/xyz/openbmc_project/led/physical/fan1_green" in
  let phys := mkPhysical 1 key (mkSysfsLed 0 "/sys/class/leds/fan1:green") "green" in
  removeLedConfigure env (Some (mkMessage (inr "fan1:green") (Some file_exists)))
    context_self Machine_init =
  Returned (- EINVAL)
    (mkMachine {[key := phys]} 2
       [NewSysfsLed (mkSysfsLed 0 "/sys/class/leds/fan1:green"); NewPhysical phys;
        error_set file_exists]).
Proof.
  exact (proj2
    (present_device_is_registered (env_with ["/sys/class/leds/fan1:green"])
       "fan1:green" (Some file_exists) Machine_init eq_refl eq_refl eq_refl)).
Defined.

Lemma guarded_body_refused (env : Env) (name : string) (e : exception_t)
    (reply : option exception_t) (m : Machine) :
  fs_exists env (ledDevPath name) = inr true ->
  physical_ctor env (ledObjPath name) = Some e ->
  try_catch env
    (guarded_body env (Some (mkMessage (inr name) reply)) context_self
       (createLEDPath env)) m =
  Returned (error_rc env e)
    (mkMachine (leds m) (S (next_id m))
       (trace m ++ [NewSysfsLed (new_sled name m); DeleteSysfsLed (new_sled name m);
                    error_set e])).
Proof.
  intros Hfs Hctor.
  unfold try_catch, guarded_body, bind, message_unpack, message_method_return,
    through, ret. simpl.
  rewrite (createLEDPath_refused env name m e Hfs Hctor). simpl.
  by rewrite <- app_assoc.
Qed.

(** X18. When the constructor of the control object throws, a callback
    returns the error value for that exception: [leds] is as before, the
    handle built for the call is destroyed, and no method return is sent. *)
Theorem refused_device_is_reported (env : Env) (name : string) (e : exception_t)
    (reply : option exception_t) (m : Machine) :
  fs_exists env (ledDevPath name) = inr true ->
  physical_ctor env (ledObjPath name) = Some e ->
  let after :=
    Returned (error_rc env e)
      (mkMachine (leds m) (S (next_id m))
         (trace m ++ [NewSysfsLed (new_sled name m); DeleteSysfsLed (new_sled name m);
                      error_set e])) in
  addLedConfigure env (Some (mkMessage (inr name) reply)) context_self m = after /\
  removeLedConfigure env (Some (mkMessage (inr name) reply)) context_self m = after.
Proof.
  intros Hfs Hctor after. subst after.
  rewrite addLedConfigure_self, removeLedConfigure_self.
  split; by apply guarded_body_refused.
Qed.

Lemma refused_device_is_reported_witness :
  let env := env_refusing ["/sys/class/leds/fan1:green"] file_exists in
  addLedConfigure env (Some (mkMessage (inr "fan1:green") None))
    context_self Machine_init =
  Returned (- EINVAL)
    (mkMachine ∅ 1
       [NewSysfsLed (mkSysfsLed 0 "/sys/class/leds/fan1:green");
        DeleteSysfsLed (mkSysfsLed 0 "/sys/class/leds/fan1:green");
        error_set file_exists]).
Proof.
  exact (proj1
    (refused_device_is_reported (env_refusing ["/sys/class/leds/fan1:green"] file_exists)
       "fan1:green" file_exists None Machine_init eq_refl eq_refl)).
Defined.

(** X19. Two raw names with the same canonical id share one key: once the
    first is registered, a call for the second, in any environment, leaves
    [leds] as it is, and the entry under the shared key stays the object
    built for the first name, over the directory of the first name. *)
Theorem colliding_name_is_dropped (env1 env2 : Env) (name1 name2 : string) (m : Machine) :
  canonicalId name1 = canonicalId name2 ->
  fs_exists env1 (ledDevPath name1) = inr true ->
  physical_ctor env1 (ledObjPath name1) = None ->
  leds m !! ledObjPath name1 = None ->
  let m1 := snd (addLED env1 name1 m) in
  let m2 := snd (addLED env2 name2 m1) in
  leds m2 = leds m1 /\
  leds m2 !! ledObjPath name2 = Some (new_phys name1 m) /\
  sled_root (phys_led (new_phys name1 m)) = DEVPATH +:+ name1.
Proof.
  intros Hid Hfs Hctor Hkey m1 m2.
  assert (ledObjPath name2 = ledObjPath name1) as Hpath.
  { unfold ledObjPath. by rewrite Hid. }
  assert (leds m1 !! ledObjPath name2 = Some (new_phys name1 m)) as Hlive.
  { subst m1. unfold addLED.
    rewrite (createLEDPath_fresh env1 name1 m Hfs Hctor Hkey). simpl.
    rewrite Hpath. apply lookup_insert_eq. }
  assert (leds m2 = leds m1) as Hsame.
  { subst m2. unfold addLED at 1. rewrite createLEDPath_leds_cases. by rewrite Hlive. }
  split; [exact Hsame|]. split; [by rewrite Hsame|reflexivity].
Qed.

Lemma colliding_name_is_dropped_witness :
  let env := env_with ["/sys/class/leds/a:b"; "/sys/class/leds/a::b"] in
  leds (snd (addLED env "a::b" (snd (addLED env "a:b" Machine_init))))
    !! ledObjPath "a::b" =
  Some (mkPhysical 1 "/xyz/openbmc_project/led/physical/a_b"
          (mkSysfsLed 0 "/sys/class/leds/a:b") "b").
Proof.
  exact (proj1 (proj2
    (colliding_name_is_dropped
       (env_with ["/sys/class/leds/a:b"; "/sys/class/leds/a::b"])
       (env_with ["/sys/class/leds/a:b"; "/sys/class/leds/a::b"])
       "a:b" "a::b" Machine_init eq_refl eq_refl eq_refl eq_refl))).
Defined.
